(** * ipfs-search: existing-item reconciliation and the queue worker

    A shallow embedding of [crawler/existing_item.go] (the reference merge,
    the conditional index write, the crawl decision) and of
    [queue/worker.go] (the per-message acknowledge/reject protocol with
    panic containment, and the consumption loop), with the properties the
    specification states about them. *)

From stdpp Require Import base strings list gmap.

Open Scope string_scope.
Open Scope list_scope.

(** ** Go values shared by both packages *)

(** A non-nil value of Go's interface type [error]: its dynamic type and
    the text its [Error()] method returns.  A Go [error] that may be nil
    is an [option error]. *)
Record error := mkError { dyn_type : string; Error : string }.

(** [errors.New(text)] *)
Definition errors_New (text : string) : error :=
  {| dyn_type := "*errors.errorString"; Error := text |}.

(** A [context.Context].  Both packages only hand it on to their
    collaborators; the worker's [select] on [ctx.Done()] is driven by the
    schedule given to [queue.Work]. *)
Record Context := { ctx_id : nat }.

(** A Go slice [[]A]: [None] is the nil slice, [Some []] the empty non-nil
    one.  The code under study tells the two apart. *)
Definition slice (A : Type) : Type := option (list A).

(** The entries of a slice, in order: none for a nil slice. *)
Definition elements_of {A : Type} (s : slice A) : list A := default [] s.

(** ** Package indexer: the interface the crawler consumes *)
Module indexer.

(** [indexer.Reference] *)
Record Reference := { Name : string; ParentHash : string }.

(** A value stored in the [metadata] mapping handed to [IndexItem]. *)
Inductive property :=
| PReferences (rs : slice Reference)
| PString (s : string).

(** Modelled from the spec: the interface [indexer.Indexer] is declared
    outside the files at hand.  [GetReferences] yields the references
    (possibly nil), the item type and an error; [IndexItem] yields the
    error of the write. *)
Record Indexer := {
  IndexItem : Context -> string -> string -> gmap string property -> option error;
  GetReferences : Context -> string -> slice Reference * string * option error
}.

End indexer.

(** ** Package crawler: existing items *)
Module crawler.

Import indexer.

(** Modelled from the spec: the struct [Indexable] is declared outside
    the files at hand; these are the fields the code reads. *)
Record Indexable := {
  Hash : string;
  Name : string;
  ParentHash : string;
  Indexer : indexer.Indexer
}.

(** [type existingItem struct].  The embedded [*Indexable] is the field
    [indexable]; the Go field [exists] is [exists_]. *)
Record existingItem := {
  indexable : Indexable;
  exists_ : bool;
  references : slice Reference;
  itemType : string
}.

(** [metadata], a [map[string]interface{}] *)
Abbreviation metadata := (gmap string property).

(** One call of [Indexer.IndexItem], as the index saw it. *)
Record IndexItemCall := {
  call_itemType : string;
  call_hash : string;
  call_properties : metadata
}.

(** What the crawler's effects touch: the clock read by [nowISO()] and
    the writes made to the index, oldest first. *)
Record World := {
  clock : string;
  writes : list IndexItemCall
}.

(** Modelled from the spec: [nowISO()] is declared outside the files at
    hand; it renders the current time as an ISO-8601 string. *)
Definition nowISO (w : World) : string := clock w.

(** The assignment [i.references = rs]. *)
Definition set_references (i : existingItem) (rs : slice Reference) : existingItem :=
  {| indexable := indexable i; exists_ := exists_ i;
     references := rs; itemType := itemType i |}.

(** The loop of [updateReferences]: is there a reference whose
    [ParentHash] is [parent]?  It stops at the first one. *)
Fixpoint parent_referenced (rs : list Reference) (parent : string) : bool :=
  match rs with
  | [] => false
  | reference :: rest =>
      if String.eqb (indexer.ParentHash reference) parent then true
      else parent_referenced rest parent
  end.

(** [func (i *existingItem) updateReferences()] *)
Definition updateReferences (i : existingItem) : existingItem :=
  match references i with
  | None =>
      (* Initialize empty references when none have been found *)
      set_references i (Some [])
  | Some rs =>
      if String.eqb (ParentHash (indexable i)) "" then
        (* No parent hash for item, not adding reference *)
        i
      else if parent_referenced rs (ParentHash (indexable i)) then
        (* Reference exists, not updating *)
        i
      else
        (* New references found, updating references *)
        set_references i
          (Some (rs ++ [ {| indexer.Name := Name (indexable i);
                            indexer.ParentHash := ParentHash (indexable i) |} ]))
  end.

(** [func (i *existingItem) updateIndex(ctx) error] *)
Definition updateIndex (i : existingItem) (ctx : Context) (w : World)
  : option error * World :=
  let properties : metadata :=
    <["last-seen" := PString (nowISO w)]>
      (<["references" := PReferences (references i)]> ∅) in
  (IndexItem (Indexer (indexable i)) ctx (itemType i) (Hash (indexable i)) properties,
   {| clock := clock w;
      writes := writes w ++ [ {| call_itemType := itemType i;
                                 call_hash := Hash (indexable i);
                                 call_properties := properties |} ] |}).

(** [func (i *existingItem) update(ctx) error].  The receiver is a
    pointer, so the item as the call left it is returned too. *)
Definition update (i : existingItem) (ctx : Context) (w : World)
  : option error * existingItem * World :=
  let i' := updateReferences i in
  if exists_ i' then
    let '(err, w') := updateIndex i' ctx w in (err, i', w')
  else (None, i', w).

(** [func (i *Indexable) getExistingItem(ctx)], which returns a pointer to
    an [existingItem] or an error. *)
Definition getExistingItem (i : Indexable) (ctx : Context) : existingItem + error :=
  let '(references, itemType, err) := GetReferences (Indexer i) ctx (Hash i) in
  match err with
  | Some e => inr e
  | None =>
      inl {| indexable := i;
             exists_ := bool_decide (references <> None);
             references := references;
             itemType := itemType |}
  end.

Section SkipPolicy.

(** The skip policy [skipItem()], a method of the embedded
    [Indexable] declared outside the files at hand. *)
Variable skipItem : Indexable -> bool.

(** [func (i *existingItem) shouldCrawl() bool] *)
Definition shouldCrawl (i : existingItem) : bool :=
  negb (skipItem (indexable i)) || negb (exists_ i).

End SkipPolicy.

End crawler.

(** ** Package queue: the worker *)
Module queue.

(** [amqp.Delivery], as far as the worker reads it. *)
Record Delivery := { DeliveryTag : N; Body : string }.

(** A value of type [interface{}] as [recover()] hands it to the deferred
    function of [Process] while the goroutine panics: the nil interface
    value, which is what a [panic(nil)] leaves to [recover()] under the
    semantics of Go 1.20 and older (from Go 1.21 on the runtime hands over
    a [*runtime.PanicNilError] instead, which is an [error]), and then the
    three cases of the type switch in [recoverPanic]: a [string], a value
    that implements [error], or a value of any other dynamic type, given
    with its [%v] rendering. *)
Inductive value :=
| VNil
| VString (x : string)
| VError (x : error)
| VOther (dyn : string) (rendered : string).

(** [fmt.Sprintf("%v", r)] *)
Definition fmt_v (r : value) : string :=
  match r with
  | VNil => "<nil>"
  | VString x => x
  | VError x => Error x
  | VOther _ rendered => rendered
  end.

(** What a message's handling does to the outside, in order: lines given
    to [log.Printf], [Ack] and [Reject] calls on a delivery, and values
    sent on a channel of errors. *)
Inductive event :=
| Logged (line : string)
| Acked (d : Delivery) (multiple : bool)
| Rejected (d : Delivery) (requeue : bool)
| Sent (ch : nat) (err : option error).

(** How a call ends: it returns, or it panics with a value. *)
Inductive outcome (A : Type) :=
| Returns (a : A)
| Panics (r : value).
Arguments Returns {A} a.
Arguments Panics {A} r.

(** A Go call with effects: from the events so far to how it ends and the
    events after it. *)
Definition M (A : Type) : Type := list event -> outcome A * list event.

#[export] Instance M_ret : MRet M := fun A a t => (Returns a, t).

#[export] Instance M_bind : MBind M := fun A B f c t =>
  match c t with
  | (Returns a, t') => f a t'
  | (Panics r, t') => (Panics r, t')
  end.

(** An effect that cannot panic. *)
Definition emit (e : event) : M unit := fun t => (Returns tt, t ++ [e]).

(** A function body run under [defer func() { if r := recover(); r != nil
    { result = on_panic(r) } }()] with a named result.  When the body
    returns, [recover()] is nil and the result stands.  When it panics with
    [r], the call to [recover()] stops the panic; if [r] is not nil the
    result is what [on_panic r] gives, and if [r] is nil the deferred
    function does nothing more and the call returns the value [named] that
    the named result holds at that moment. *)
Definition deferred_recover {A : Type}
    (body : M A) (named : A) (on_panic : value -> M A) : M A :=
  fun t =>
    match body t with
    | (Returns a, t') => (Returns a, t')
    | (Panics VNil, t') => (Returns named, t')
    | (Panics r, t') => on_panic r t'
    end.

(** [type WorkerFunc func(ctx context.Context, msg *WorkerMessage) error].
    The handler is given the delivery of the message; what it does to the
    outside, acknowledgements of its own included, is in the events it
    leaves. *)
Definition WorkerFunc : Type := Context -> Delivery -> M (option error).

(** Modelled from the spec: [Queue] and its [Consume()] are declared
    outside the files at hand.  [Consume] is the error of subscribing, if
    any; the deliveries of the stream come with the schedule of [Work]. *)
Record Queue := { Consume : option error }.

(** [type Worker struct]; [ErrChan] names the channel of errors. *)
Record Worker := {
  ErrChan : nat;
  Func : WorkerFunc;
  Queue_ : Queue
}.

(** [type WorkerMessage struct], with its two embedded pointers. *)
Record WorkerMessage := {
  worker : Worker;
  delivery : Delivery
}.

(** [log.Printf] with the line already formatted. *)
Definition log_Printf (line : string) : M unit := emit (Logged line).

(** [m.Ack(multiple)]; the error it returns is dropped by the callers. *)
Definition Ack (m : WorkerMessage) (multiple : bool) : M unit :=
  emit (Acked (delivery m) multiple).

(** [m.Reject(requeue)]; the error it returns is dropped by the callers. *)
Definition Reject (m : WorkerMessage) (requeue : bool) : M unit :=
  emit (Rejected (delivery m) requeue).

(** [ch <- err] on a channel whose receiver takes every value. *)
Definition send (ch : nat) (err : option error) : M unit := emit (Sent ch err).

(** [func (m *WorkerMessage) recoverPanic(r interface{}) (err error)] *)
Definition recoverPanic (m : WorkerMessage) (r : value) : M (option error) :=
  log_Printf ("Panic in: " +:+ Body (delivery m));;
  (* Permanently remove message from original queue *)
  Reject m false;;
  (* find out exactly what the error was and set err *)
  mret (Some match r with
             | VString x => errors_New x
             | VError x => x
             | VNil | VOther _ _ =>
                 errors_New ("Unassertable panic error: " +:+ fmt_v r)
             end).

(** The body of [Process], below its [defer]. *)
Definition Process_body (m : WorkerMessage) (ctx : Context) : M (option error) :=
  log_Printf ("Received a msg: " +:+ Body (delivery m));;
  err ← Func (worker m) ctx (delivery m);
  match err with
  | Some _ =>
      (* Don't retry *)
      Reject m false;;
      mret err
  | None =>
      (* Everything went fine, ack the message *)
      Ack m false;;
      mret err
  end.

(** [func (m *WorkerMessage) Process(ctx) (err error)].  The one call of
    the body that can panic is the handler's, and there the named result
    [err] has not been assigned yet: it is nil. *)
Definition Process (m : WorkerMessage) (ctx : Context) : M (option error) :=
  deferred_recover (Process_body m ctx) None (recoverPanic m).

(** What one [select] of the loop of [Work] takes: the context is done,
    with the error [ctx.Err()] then gives, or a delivery has arrived. *)
Inductive selected :=
| ctx_Done (err : error)
| received (msg : Delivery).

(** Where [Work] stands once the schedule is used up: waiting in its
    [select], or returned with an error. *)
Inductive work_result :=
| Consuming
| Stopped (err : error).

(** The [for { select { ... } }] of [Work]. *)
Fixpoint Work_loop (w : Worker) (ctx : Context) (schedule : list selected)
  : M work_result :=
  match schedule with
  | [] => mret Consuming
  | ctx_Done err :: _ =>
      (* Context canceled, stop processing messages *)
      mret (Stopped err)
  | received msg :: rest =>
      (* Keep going on forever *)
      let message := {| worker := w; delivery := msg |} in
      err ← Process message ctx;
      send (ErrChan w) err;;
      Work_loop w ctx rest
  end.

(** [func (w *Worker) Work(ctx) error] *)
Definition Work (w : Worker) (ctx : Context) (schedule : list selected)
  : M work_result :=
  match Consume (Queue_ w) with
  | Some err => mret (Stopped err)
  | None => Work_loop w ctx schedule
  end.

(** The acknowledgement decisions among some events: the [Ack] and
    [Reject] calls, in order. *)
Definition is_decision (e : event) : bool :=
  match e with
  | Acked _ _ | Rejected _ _ => true
  | Logged _ | Sent _ _ => false
  end.

Definition decisions (t : list event) : list event := List.filter is_decision t.

(** The three ways the handler call of [Process] can end. *)
Inductive path :=
| handler_success
| handler_error
| handler_panic.

Definition path_of (how : outcome (option error)) : path :=
  match how with
  | Returns None => handler_success
  | Returns (Some _) => handler_error
  | Panics _ => handler_panic
  end.

(** The delivery an [Ack] or [Reject] call was made on. *)
Definition decided (e : event) : option Delivery :=
  match e with
  | Acked d _ | Rejected d _ => Some d
  | Logged _ | Sent _ _ => None
  end.

(** The value a send on channel [ch] carried. *)
Definition sent_on (ch : nat) (e : event) : option (option error) :=
  match e with
  | Sent ch' err => if Nat.eqb ch ch' then Some err else None
  | Logged _ | Acked _ _ | Rejected _ _ => None
  end.

(** A handler that keeps to its own business: it only adds events, and
    among them there is no [Ack], no [Reject] and no send. *)
Definition quiet (f : WorkerFunc) : Prop :=
  forall ctx d t, exists own,
    snd (f ctx d t) = t ++ own
    /\ omap decided own = []
    /\ forall ch, omap (sent_on ch) own = [].

(** A handler that never calls [panic(nil)]. *)
Definition never_panics_with_nil (f : WorkerFunc) : Prop :=
  forall ctx d t, fst (f ctx d t) <> Panics VNil.

End queue.

(** ** Inputs the statements below are run on *)
Module samples.

Import indexer crawler queue.

(** An index that knows no hash and accepts every write. *)
Definition empty_index : indexer.Indexer :=
  {| IndexItem := fun _ _ _ _ => None;
     GetReferences := fun _ _ => (None, "", None) |}.

(** An index that knows every hash as a file without references and
    refuses writes. *)
Definition readonly_index : indexer.Indexer :=
  {| IndexItem := fun _ _ _ _ => Some (errors_New "index is read-only");
     GetReferences := fun _ _ => (Some [], "file", None) |}.

Definition background : Context := {| ctx_id := 0 |}.

(** A file found as [a.txt] inside the directory [QmParent]. *)
Definition candidate : Indexable :=
  {| Hash := "QmFile"; Name := "a.txt"; ParentHash := "QmParent";
     Indexer := empty_index |}.

(** The same file found again under the name [b.txt]. *)
Definition renamed_candidate : Indexable :=
  {| Hash := "QmFile"; Name := "b.txt"; ParentHash := "QmParent";
     Indexer := readonly_index |}.

(** [candidate] as [getExistingItem] builds it when the index has no
    entry for the hash. *)
Definition unseen_item : existingItem :=
  {| indexable := candidate; exists_ := false; references := None; itemType := "" |}.

(** [renamed_candidate] with the reference recorded at its first visit. *)
Definition seen_item : existingItem :=
  {| indexable := renamed_candidate; exists_ := true;
     references := Some [ {| indexer.Name := "a.txt"; indexer.ParentHash := "QmParent" |} ];
     itemType := "file" |}.

(** Handlers: one that succeeds, one that reports an error, one that
    panics with a given value, and one that rejects the delivery itself
    before it reports an error. *)
Definition succeed : WorkerFunc := fun _ _ => mret None.

Definition fail_with (text : string) : WorkerFunc :=
  fun _ _ => mret (Some (errors_New text)).

Definition panic_with (r : value) : WorkerFunc := fun _ _ t => (Panics r, t).

Definition reject_then_fail : WorkerFunc :=
  fun _ d => emit (Rejected d true);; mret (Some (errors_New "rejected by the handler")).

Definition worker_of (f : WorkerFunc) : Worker :=
  {| ErrChan := 1; Func := f; Queue_ := {| Consume := None |} |}.

Definition hello : Delivery := {| DeliveryTag := 7; Body := "hello" |}.

Definition noon : crawler.World := {| clock := "2019-05-01T12:00:00Z"; writes := [] |}.

(** An index that knows every hash as a file found once, as [a.txt]
    inside [QmParent], and accepts every write. *)
Definition file_index : indexer.Indexer :=
  {| IndexItem := fun _ _ _ _ => None;
     GetReferences := fun _ _ =>
       (Some [ {| indexer.Name := "a.txt"; indexer.ParentHash := "QmParent" |} ],
        "file", None) |}.

(** An index that cannot be reached. *)
Definition unreachable_index : indexer.Indexer :=
  {| IndexItem := fun _ _ _ _ => Some (errors_New "connection refused");
     GetReferences := fun _ _ => (None, "", Some (errors_New "connection refused")) |}.

(** The file of [candidate] found as [c.txt] inside another directory. *)
Definition moved_candidate : Indexable :=
  {| Hash := "QmFile"; Name := "c.txt"; ParentHash := "QmOther";
     Indexer := file_index |}.

(** [moved_candidate] as [getExistingItem] builds it from [file_index]. *)
Definition moved_item : existingItem :=
  {| indexable := moved_candidate; exists_ := true;
     references := Some [ {| indexer.Name := "a.txt"; indexer.ParentHash := "QmParent" |} ];
     itemType := "file" |}.

(** A root item, without parent, that the index has without references. *)
Definition root_item : existingItem :=
  {| indexable := {| Hash := "QmRoot"; Name := ""; ParentHash := "";
                     Indexer := readonly_index |};
     exists_ := true; references := Some []; itemType := "directory" |}.

Definition goodbye : Delivery := {| DeliveryTag := 8; Body := "goodbye" |}.

(** A handler that logs the body and fails on an empty one. *)
Definition log_body : WorkerFunc :=
  fun _ d =>
    emit (Logged ("handling " +:+ Body d));;
    mret (if String.eqb (Body d) "" then Some (errors_New "empty body") else None).

End samples.

(** * Properties of the existing-item reconciliation *)

Section ExistingItem.

Import crawler.

Implicit Types (i : existingItem) (rs : list indexer.Reference) (parent : string).

(** The loop finds a reference exactly when some entry has that parent. *)
Lemma parent_referenced_elem rs parent :
  parent_referenced rs parent = true <-> parent ∈ indexer.ParentHash <$> rs.
Proof.
  induction rs as [|r rest IH]; simpl.
  - split; [discriminate | intros H; inversion H].
  - destruct (String.eqb_spec (indexer.ParentHash r) parent) as [Heq | Hne].
    + split; [intros _; rewrite Heq; left | reflexivity].
    + rewrite IH. split; [intros H; by right | intros H].
      inversion H; subst; [congruence | assumption].
Qed.

Lemma parent_referenced_snoc rs r parent :
  parent_referenced (rs ++ [r]) parent =
  parent_referenced rs parent || String.eqb (indexer.ParentHash r) parent.
Proof.
  induction rs as [|r' rest IH]; simpl.
  - by destruct (String.eqb _ _).
  - by destruct (String.eqb (indexer.ParentHash r') parent).
Qed.

(** A merge under a parent that some entry already has changes nothing. *)
Lemma updateReferences_known_parent i rs r :
  references i = Some rs -> r ∈ rs ->
  indexer.ParentHash r = ParentHash (indexable i) ->
  updateReferences i = i.
Proof.
  intros Hrs Hin Hparent. unfold updateReferences. rewrite Hrs.
  destruct (String.eqb _ ""); [reflexivity |].
  assert (parent_referenced rs (ParentHash (indexable i)) = true) as ->; [| reflexivity].
  apply parent_referenced_elem, list_elem_of_fmap. eauto.
Qed.

(** The item an append leaves is not touched by a further merge. *)
Lemma updateReferences_after_append i rs :
  String.eqb (ParentHash (indexable i)) "" = false ->
  let added := {| indexer.Name := Name (indexable i);
                  indexer.ParentHash := ParentHash (indexable i) |} in
  updateReferences (set_references i (Some (rs ++ [added]))) =
  set_references i (Some (rs ++ [added])).
Proof.
  intros Hparent added. unfold updateReferences; simpl. rewrite Hparent.
  rewrite parent_referenced_snoc. subst added; simpl.
  rewrite String.eqb_refl, orb_true_r. reflexivity.
Qed.

(** [updateReferences] assigns to the references field and to no other. *)
Lemma updateReferences_assigns_references i :
  updateReferences i = set_references i (references (updateReferences i)).
Proof.
  unfold updateReferences.
  destruct (references i) as [rs|] eqn:Hrs; [| reflexivity].
  destruct (String.eqb _ ""); [by destruct i; simpl in *; subst |].
  destruct (parent_referenced _ _); [by destruct i; simpl in *; subst | reflexivity].
Qed.

(** C1, as the code has it: an item whose references are nil leaves
    [updateReferences] with the empty, non-nil collection, whatever its
    [ParentHash] is; nothing else of the item changes. *)
Theorem updateReferences_nil_initialises i :
  references i = None ->
  references (updateReferences i) = Some []
  /\ updateReferences i = set_references i (Some []).
Proof.
  intros Hnil. unfold updateReferences. rewrite Hnil. split; reflexivity.
Qed.

Lemma updateReferences_nil_initialises_witness :
  references samples.unseen_item = None
  /\ ParentHash (indexable samples.unseen_item) = "QmParent"
  /\ references (updateReferences samples.unseen_item) = Some [].
Proof.
  split; [reflexivity | split; [reflexivity |]].
  apply (updateReferences_nil_initialises samples.unseen_item). reflexivity.
Defined.

(** C1, as the specification words it, fails: with nil references and a
    non-empty [ParentHash] the result is not the single entry
    [{Name, ParentHash}]. *)
Lemma updateReferences_nil_single_entry_refuted :
  ~ (forall i, references i = None ->
       (ParentHash (indexable i) = "" ->
        references (updateReferences i) = Some [])
       /\ (ParentHash (indexable i) <> "" ->
           references (updateReferences i) =
           Some [ {| indexer.Name := Name (indexable i);
                     indexer.ParentHash := ParentHash (indexable i) |} ])).
Proof.
  intros claim.
  destruct (claim samples.unseen_item eq_refl) as [_ Hsingle].
  specialize (Hsingle ltac:(discriminate)). discriminate Hsingle.
Qed.

(** C7, as the code has it: on an item whose references are not nil, or
    whose [ParentHash] is empty, a second [updateReferences] changes
    nothing that the first one left; and when an entry already has the
    item's [ParentHash], the call changes nothing at all. *)
Theorem updateReferences_idempotent i :
  references i <> None \/ ParentHash (indexable i) = "" ->
  updateReferences (updateReferences i) = updateReferences i
  /\ (forall rs r, references i = Some rs -> r ∈ rs ->
        indexer.ParentHash r = ParentHash (indexable i) ->
        updateReferences i = i).
Proof.
  intros Hpre. split; [| intros rs r; apply updateReferences_known_parent].
  destruct (references i) as [rs|] eqn:Hrs.
  - destruct (String.eqb (ParentHash (indexable i)) "") eqn:Hroot.
    { assert (updateReferences i = i) as Hsame; [| by rewrite !Hsame].
      unfold updateReferences. by rewrite Hrs, Hroot. }
    destruct (parent_referenced rs (ParentHash (indexable i))) eqn:Hknown.
    { assert (updateReferences i = i) as Hsame; [| by rewrite !Hsame].
      unfold updateReferences. by rewrite Hrs, Hroot, Hknown. }
    assert (updateReferences i =
            set_references i
              (Some (rs ++ [ {| indexer.Name := Name (indexable i);
                                indexer.ParentHash := ParentHash (indexable i) |} ])))
      as ->.
    { unfold updateReferences. by rewrite Hrs, Hroot, Hknown. }
    by apply updateReferences_after_append.
  - destruct Hpre as [Hsome | Hroot]; [done |].
    assert (updateReferences i = set_references i (Some [])) as ->.
    { unfold updateReferences. by rewrite Hrs. }
    unfold updateReferences; simpl. by rewrite Hroot.
Qed.

Lemma updateReferences_idempotent_witness :
  updateReferences (updateReferences samples.seen_item) = updateReferences samples.seen_item
  /\ updateReferences samples.seen_item = samples.seen_item.
Proof.
  destruct (updateReferences_idempotent samples.seen_item) as [Htwice Hsame].
  - left. discriminate.
  - split; [exact Htwice |].
    eapply Hsame; [reflexivity | apply list_elem_of_singleton; reflexivity | reflexivity].
Defined.

(** C7, as the specification words it, fails: on nil references with a
    non-empty [ParentHash] the first call leaves the empty collection and
    the second one appends to it. *)
Lemma updateReferences_twice_refuted :
  ~ (forall i, references (updateReferences (updateReferences i)) =
               references (updateReferences i)).
Proof.
  intros claim. specialize (claim samples.unseen_item). discriminate claim.
Qed.

(** Where the precondition of the theorem above fails, the second call
    does differ: the first leaves the empty collection and the second
    appends the reference. *)
Lemma updateReferences_second_call_appends i :
  references i = None -> ParentHash (indexable i) <> "" ->
  references (updateReferences i) = Some []
  /\ references (updateReferences (updateReferences i)) =
     Some [ {| indexer.Name := Name (indexable i);
               indexer.ParentHash := ParentHash (indexable i) |} ].
Proof.
  intros Hnil Hparent.
  assert (updateReferences i = set_references i (Some [])) as ->.
  { unfold updateReferences. by rewrite Hnil. }
  split; [reflexivity |]. unfold updateReferences; simpl.
  by destruct (String.eqb_spec (ParentHash (indexable i)) "").
Qed.

(** C9: if no two entries of the references have the same [ParentHash]
    before [updateReferences], none have after it; and under a parent an
    entry already has, the collection stays as it was: no second entry,
    and the stored name is kept, whatever the item's [Name] is. *)
Theorem updateReferences_distinct_parents i :
  NoDup (indexer.ParentHash <$> elements_of (references i)) ->
  NoDup (indexer.ParentHash <$> elements_of (references (updateReferences i)))
  /\ (forall rs r, references i = Some rs -> r ∈ rs ->
        indexer.ParentHash r = ParentHash (indexable i) ->
        references (updateReferences i) = Some rs).
Proof.
  intros Hdistinct. split.
  - unfold updateReferences.
    destruct (references i) as [rs|] eqn:Hrs; simpl in *; [| constructor].
    destruct (String.eqb _ ""); [by rewrite Hrs |].
    destruct (parent_referenced rs (ParentHash (indexable i))) eqn:Hknown;
      [by rewrite Hrs |].
    simpl. rewrite fmap_snoc. apply NoDup_app.
    split; [assumption | split; [| apply NoDup_singleton]].
    intros parent Hin Hnew. apply list_elem_of_singleton in Hnew. simpl in Hnew.
    subst parent. apply parent_referenced_elem in Hin. congruence.
  - intros rs r Hrs Hin Hparent.
    by rewrite (updateReferences_known_parent i rs r).
Qed.

Lemma updateReferences_distinct_parents_witness :
  NoDup (indexer.ParentHash <$>
         elements_of (references (updateReferences samples.seen_item)))
  /\ references (updateReferences samples.seen_item) =
     Some [ {| indexer.Name := "a.txt"; indexer.ParentHash := "QmParent" |} ].
Proof.
  destruct (updateReferences_distinct_parents samples.seen_item) as [Hdistinct Hkept].
  - apply NoDup_singleton.
  - split; [exact Hdistinct |].
    eapply Hkept; [reflexivity | apply list_elem_of_singleton; reflexivity | reflexivity].
Defined.

(** C10: [updateReferences] writes the references field only: [exists],
    [itemType] and the embedded [Indexable], so its [Hash], [Name],
    [ParentHash] and [Indexer], are as before, and the entries present
    before the call are a prefix of those after it. *)
Theorem updateReferences_frame i :
  exists_ (updateReferences i) = exists_ i
  /\ itemType (updateReferences i) = itemType i
  /\ indexable (updateReferences i) = indexable i
  /\ Hash (indexable (updateReferences i)) = Hash (indexable i)
  /\ Name (indexable (updateReferences i)) = Name (indexable i)
  /\ ParentHash (indexable (updateReferences i)) = ParentHash (indexable i)
  /\ Indexer (indexable (updateReferences i)) = Indexer (indexable i)
  /\ elements_of (references i) `prefix_of`
     elements_of (references (updateReferences i)).
Proof.
  rewrite (updateReferences_assigns_references i) at 1 2 3 4 5 6 7.
  simpl. repeat split.
  unfold updateReferences.
  destruct (references i) as [rs|] eqn:Hrs; simpl; [| apply prefix_nil].
  destruct (String.eqb _ ""); [by rewrite Hrs |].
  destruct (parent_referenced _ _); [by rewrite Hrs |].
  simpl. by apply prefix_app_r.
Qed.

(** The reference merge on the two sample items: first discovery leaves
    the empty collection, and a second merge then appends; a known parent
    keeps the name stored first. *)
Example updateReferences_unseen :
  references (updateReferences samples.unseen_item) = Some []
  /\ references (updateReferences (updateReferences samples.unseen_item)) =
     Some [ {| indexer.Name := "a.txt"; indexer.ParentHash := "QmParent" |} ].
Proof. split; reflexivity. Qed.

Example updateReferences_seen :
  Name (indexable samples.seen_item) = "b.txt"
  /\ references (updateReferences samples.seen_item) =
     Some [ {| indexer.Name := "a.txt"; indexer.ParentHash := "QmParent" |} ].
Proof. split; reflexivity. Qed.

(** C4: [update] leaves the item as [updateReferences] leaves it, whatever
    [exists] is.  When [exists] is true it makes one index write, under the
    item's type and hash, whose properties hold the merged references under
    [references] and the time of the call under [last-seen], and it returns
    the error of that write as it is; when [exists] is false it writes
    nothing and returns nil. *)
Theorem update_reconciles i (ctx : Context) (w : World) :
  let merged := updateReferences i in
  let '(err, i', w') := update i ctx w in
  i' = merged
  /\ if exists_ i then
       exists properties : metadata,
         properties !! "references" = Some (indexer.PReferences (references merged))
         /\ properties !! "last-seen" = Some (indexer.PString (nowISO w))
         /\ writes w' =
            writes w ++ [ {| call_itemType := itemType i;
                             call_hash := Hash (indexable i);
                             call_properties := properties |} ]
         /\ err = indexer.IndexItem (Indexer (indexable i)) ctx
                    (itemType i) (Hash (indexable i)) properties
     else writes w' = writes w /\ w' = w /\ err = None.
Proof.
  intros merged. subst merged. unfold update. cbv zeta.
  pose proof (updateReferences_assigns_references i) as Hassigned.
  assert (exists_ (updateReferences i) = exists_ i) as Hexists
    by (by rewrite Hassigned).
  assert (itemType (updateReferences i) = itemType i) as Htype
    by (by rewrite Hassigned).
  assert (indexable (updateReferences i) = indexable i) as Hindexable
    by (by rewrite Hassigned).
  rewrite Hexists.
  destruct (exists_ i); [| done].
  unfold updateIndex. rewrite Htype, Hindexable.
  split; [reflexivity |]. eexists. split; [| split; [| split; reflexivity]].
  - rewrite lookup_insert_ne by discriminate. apply lookup_insert_eq.
  - apply lookup_insert_eq.
Qed.

Example update_unseen :
  update samples.unseen_item samples.background samples.noon =
  (None, set_references samples.unseen_item (Some []), samples.noon).
Proof. reflexivity. Qed.

Example update_seen :
  let '(err, _, w') := update samples.seen_item samples.background samples.noon in
  err = Some (errors_New "index is read-only")
  /\ (call_hash <$> writes w') = ["QmFile"]
  /\ (fun c => call_properties c !! "last-seen") <$> writes w' =
     [Some (indexer.PString "2019-05-01T12:00:00Z")].
Proof. repeat split; reflexivity. Qed.

(** C8: [getExistingItem] fails exactly when [GetReferences] does, with
    the same error; otherwise it returns an item whose [exists] is true
    exactly when the references that came back are not nil, so that the
    empty non-nil collection gives true and nil gives false. *)
Theorem getExistingItem_exists (candidate : Indexable) (ctx : Context) :
  let '(found, type, err) :=
    indexer.GetReferences (Indexer candidate) ctx (Hash candidate) in
  (forall e, getExistingItem candidate ctx = inr e <-> err = Some e)
  /\ (err = None ->
      exists i, getExistingItem candidate ctx = inl i
        /\ indexable i = candidate /\ references i = found /\ itemType i = type
        /\ (exists_ i = true <-> found <> None)
        /\ (found = Some [] -> exists_ i = true)
        /\ (found = None -> exists_ i = false)).
Proof.
  unfold getExistingItem.
  destruct (indexer.GetReferences _ _ _) as [[found type] [e'|]].
  - split; [| discriminate]. intros e. split; congruence.
  - split; [intros e; split; discriminate |]. intros _. eexists.
    split; [reflexivity |]. simpl. repeat split; try done.
    + intros H. by apply bool_decide_eq_true in H.
    + intros H. by apply bool_decide_eq_true.
    + intros ->. by apply bool_decide_eq_true.
    + intros ->. by apply bool_decide_eq_false; intros H; apply H.
Qed.

(** C6: [shouldCrawl] is true unless the skip policy says skip and the
    item exists: true whenever [exists] is false, and the negation of the
    policy's answer whenever [exists] is true. *)
Theorem shouldCrawl_unless_skipped_existing (skipItem : Indexable -> bool) i :
  shouldCrawl skipItem i = negb (skipItem (indexable i) && exists_ i)
  /\ (exists_ i = false -> shouldCrawl skipItem i = true)
  /\ (exists_ i = true -> shouldCrawl skipItem i = negb (skipItem (indexable i))).
Proof.
  unfold shouldCrawl.
  destruct (skipItem (indexable i)), (exists_ i); repeat split; done.
Qed.

End ExistingItem.

(** * Properties of the queue worker *)

Section WorkerProtocol.

Import queue.

Implicit Types (w : Worker) (ctx : Context) (msg : Delivery) (t : list event).

(** [Process], by the way the handler call ends. *)
Lemma Process_by_outcome w ctx msg t :
  Process {| worker := w; delivery := msg |} ctx t =
  match Func w ctx msg (t ++ [Logged ("Received a msg: " +:+ Body msg)]) with
  | (Returns None, t') => (Returns None, t' ++ [Acked msg false])
  | (Returns (Some e), t') => (Returns (Some e), t' ++ [Rejected msg false])
  | (Panics VNil, t') => (Returns None, t')
  | (Panics r, t') =>
      recoverPanic {| worker := w; delivery := msg |} r t'
  end.
Proof.
  unfold Process, deferred_recover, Process_body, log_Printf, emit.
  unfold mbind, M_bind, mret, M_ret; simpl.
  destruct (Func w ctx msg _) as [[[e|] | []] t']; reflexivity.
Qed.

(** [recoverPanic] returns, having logged and rejected. *)
Lemma recoverPanic_returns (m : WorkerMessage) (r : value) t :
  exists e,
    recoverPanic m r t =
    (Returns (Some e),
     t ++ [Logged ("Panic in: " +:+ Body (delivery m)); Rejected (delivery m) false])
    /\ e = match r with
           | VString x => errors_New x
           | VError x => x
           | VNil | VOther _ _ =>
               errors_New ("Unassertable panic error: " +:+ fmt_v r)
           end.
Proof.
  eexists. split; [| reflexivity].
  unfold recoverPanic, log_Printf, Reject, emit, mbind, M_bind, mret, M_ret; simpl.
  by rewrite <- app_assoc.
Qed.

(** One turn of the loop on a delivery: [Process], then the send. *)
Lemma Work_loop_received w ctx msg rest t err t' :
  Process {| worker := w; delivery := msg |} ctx t = (Returns err, t') ->
  Work_loop w ctx (received msg :: rest) t =
  Work_loop w ctx rest (t' ++ [Sent (ErrChan w) err]).
Proof.
  intros HProcess. simpl. unfold mbind, M_bind at 1. rewrite HProcess.
  reflexivity.
Qed.

(** C2, where the code departs from it: a handler that calls
    [panic(nil)] leaves [Process] returning nil with no decision at all on
    the delivery, neither [Ack] nor [Reject]; the test [r != nil] of the
    deferred function takes the recovered nil for no panic. *)
Theorem Process_nil_panic_decides_nothing :
  Process {| worker := samples.worker_of (samples.panic_with VNil);
             delivery := samples.hello |} samples.background [] =
  (Returns None, [Logged "Received a msg: hello"])
  /\ decisions [Logged "Received a msg: hello"] = [].
Proof. split; reflexivity. Qed.

(** X17: on every path but that of a nil panic, [Process] returns, and the
    events it adds after those of the handler hold exactly one
    acknowledgement decision, on the delivery of the message:
    [Ack(false)] where the handler returns nil, [Reject(false)] where it
    returns an error, [Reject(false)] where it panics with a value that is
    not nil.  There [Process] never acknowledges or rejects twice. *)
Theorem Process_decides_once_unless_nil_panic w ctx msg t how handled :
  Func w ctx msg (t ++ [Logged ("Received a msg: " +:+ Body msg)]) = (how, handled) ->
  how <> Panics VNil ->
  exists err own,
    Process {| worker := w; delivery := msg |} ctx t = (Returns err, handled ++ own)
    /\ length (decisions own) = 1
    /\ decisions own =
       [ match path_of how with
         | handler_success => Acked msg false
         | handler_error => Rejected msg false
         | handler_panic => Rejected msg false
         end ].
Proof.
  intros Hhandler Hnot_nil. rewrite Process_by_outcome, Hhandler.
  destruct how as [[e|] | r]; simpl.
  - by exists (Some e), [Rejected msg false].
  - by exists None, [Acked msg false].
  - destruct (recoverPanic_returns {| worker := w; delivery := msg |} r handled)
      as (e & Hrecover & _).
    exists (Some e), [Logged ("Panic in: " +:+ Body msg); Rejected msg false].
    split; [| done]. by destruct r.
Qed.

Lemma Process_decides_once_unless_nil_panic_witness :
  exists err own,
    Process {| worker := samples.worker_of (samples.panic_with (VOther "int" "42"));
               delivery := samples.hello |} samples.background [] =
    (Returns err, [Logged "Received a msg: hello"] ++ own)
    /\ decisions own = [Rejected samples.hello false].
Proof.
  destruct (Process_decides_once_unless_nil_panic
              (samples.worker_of (samples.panic_with (VOther "int" "42")))
              samples.background samples.hello []
              (Panics (VOther "int" "42")) [Logged "Received a msg: hello"]
              eq_refl ltac:(discriminate))
    as (err & own & HProcess & _ & Hdecisions).
  exists err, own. split; [exact HProcess | exact Hdecisions].
Defined.

(** A handler that rejects the delivery itself: the trace then holds two
    rejections, one of the handler and the one of [Process]. *)
Example Process_after_rejecting_handler :
  decisions (snd (Process {| worker := samples.worker_of samples.reject_then_fail;
                             delivery := samples.hello |} samples.background [])) =
  [Rejected samples.hello true; Rejected samples.hello false].
Proof. reflexivity. Qed.

(** C3, where the code departs from it: when the handler calls
    [panic(nil)], the panic is contained, but the message is not rejected
    and no error comes of it: [Work] sends nil on the channel of errors,
    as it does for a message handled well. *)
Theorem Work_nil_panic_reports_no_error :
  Work (samples.worker_of (samples.panic_with VNil)) samples.background
    [received samples.hello] [] =
  (Returns Consuming, [Logged "Received a msg: hello"; Sent 1 None]).
Proof. reflexivity. Qed.

(** X18: when the handler panics with a value [r] that is not nil,
    [Process] returns all the same, having rejected the message with
    [requeue = false] and nothing else, and the loop of [Work] sends the
    error and goes on to the next delivery.  The error is [errors.New(x)]
    for a string [x], [x] itself for an error [x], and otherwise an error
    whose text is "Unassertable panic error: " followed by the [%v]
    rendering of [r]. *)
Theorem Process_contains_non_nil_panic w ctx msg rest t r handled :
  Func w ctx msg (t ++ [Logged ("Received a msg: " +:+ Body msg)]) =
    (Panics r, handled) ->
  r <> VNil ->
  exists e,
    Process {| worker := w; delivery := msg |} ctx t =
    (Returns (Some e),
     handled ++ [Logged ("Panic in: " +:+ Body msg); Rejected msg false])
    /\ Work_loop w ctx (received msg :: rest) t =
       Work_loop w ctx rest
         (handled ++ [Logged ("Panic in: " +:+ Body msg); Rejected msg false;
                      Sent (ErrChan w) (Some e)])
    /\ (forall x, r = VString x -> e = errors_New x /\ Error e = x)
    /\ (forall x, r = VError x -> e = x)
    /\ (forall dyn rendered, r = VOther dyn rendered ->
          e = errors_New ("Unassertable panic error: " +:+ rendered)
          /\ Error e = "Unassertable panic error: " +:+ fmt_v r).
Proof.
  intros Hpanic Hnot_nil.
  destruct (recoverPanic_returns {| worker := w; delivery := msg |} r handled)
    as (e & Hrecover & He).
  assert (Process {| worker := w; delivery := msg |} ctx t =
          (Returns (Some e),
           handled ++ [Logged ("Panic in: " +:+ Body msg); Rejected msg false]))
    as HProcess.
  { rewrite Process_by_outcome, Hpanic. by destruct r. }
  exists e. split; [exact HProcess |]. split.
  - rewrite (Work_loop_received _ _ _ _ _ _ _ HProcess).
    by rewrite <- app_assoc.
  - repeat split; intros; subst; reflexivity.
Qed.

Lemma Process_contains_non_nil_panic_witness :
  Process {| worker := samples.worker_of (samples.panic_with (VString "boom"));
             delivery := samples.hello |} samples.background [] =
  (Returns (Some (errors_New "boom")),
   [Logged "Received a msg: hello"; Logged "Panic in: hello";
    Rejected samples.hello false]).
Proof.
  destruct (Process_contains_non_nil_panic
              (samples.worker_of (samples.panic_with (VString "boom")))
              samples.background samples.hello [] [] (VString "boom")
              [Logged "Received a msg: hello"] eq_refl ltac:(discriminate))
    as (e & HProcess & _ & Hstring & _).
  destruct (Hstring "boom" eq_refl) as [-> _]. exact HProcess.
Defined.

(** C5: when the handler returns nil, the message is acknowledged and nil
    is sent on the channel of errors; when it returns an error [E], the
    message is rejected with [requeue = false] and [E] itself is sent.
    Either way [Work] goes on with the rest of its schedule. *)
Theorem Work_reports_handler_result w ctx msg rest t handled :
  Consume (Queue_ w) = None ->
  (Func w ctx msg (t ++ [Logged ("Received a msg: " +:+ Body msg)]) =
     (Returns None, handled) ->
   Process {| worker := w; delivery := msg |} ctx t =
     (Returns None, handled ++ [Acked msg false])
   /\ Work w ctx (received msg :: rest) t =
      Work_loop w ctx rest (handled ++ [Acked msg false; Sent (ErrChan w) None]))
  /\ (forall E,
        Func w ctx msg (t ++ [Logged ("Received a msg: " +:+ Body msg)]) =
          (Returns (Some E), handled) ->
        Process {| worker := w; delivery := msg |} ctx t =
          (Returns (Some E), handled ++ [Rejected msg false])
        /\ Work w ctx (received msg :: rest) t =
           Work_loop w ctx rest
             (handled ++ [Rejected msg false; Sent (ErrChan w) (Some E)])).
Proof.
  intros Hconsume. unfold Work. rewrite Hconsume.
  split; [| intros E]; intros Hhandler.
  - assert (Process {| worker := w; delivery := msg |} ctx t =
            (Returns None, handled ++ [Acked msg false])) as HProcess
      by (by rewrite Process_by_outcome, Hhandler).
    split; [exact HProcess |].
    rewrite (Work_loop_received _ _ _ _ _ _ _ HProcess). by rewrite <- app_assoc.
  - assert (Process {| worker := w; delivery := msg |} ctx t =
            (Returns (Some E), handled ++ [Rejected msg false])) as HProcess
      by (by rewrite Process_by_outcome, Hhandler).
    split; [exact HProcess |].
    rewrite (Work_loop_received _ _ _ _ _ _ _ HProcess). by rewrite <- app_assoc.
Qed.

Lemma Work_reports_handler_result_witness :
  Work (samples.worker_of samples.succeed) samples.background
    [received samples.hello] [] =
  (Returns Consuming,
   [Logged "Received a msg: hello"; Acked samples.hello false; Sent 1 None])
  /\ Work (samples.worker_of (samples.fail_with "no such hash")) samples.background
       [received samples.hello; ctx_Done (errors_New "context canceled")] [] =
     (Returns (Stopped (errors_New "context canceled")),
      [Logged "Received a msg: hello"; Rejected samples.hello false;
       Sent 1 (Some (errors_New "no such hash"))]).
Proof.
  split.
  - destruct (Work_reports_handler_result
                (samples.worker_of samples.succeed) samples.background
                samples.hello [] [] [Logged "Received a msg: hello"] eq_refl)
      as [Hnil _].
    destruct (Hnil eq_refl) as [_ ->]. reflexivity.
  - destruct (Work_reports_handler_result
                (samples.worker_of (samples.fail_with "no such hash"))
                samples.background samples.hello
                [ctx_Done (errors_New "context canceled")] []
                [Logged "Received a msg: hello"] eq_refl)
      as [_ Herr].
    destruct (Herr (errors_New "no such hash") eq_refl) as [_ ->]. reflexivity.
Defined.

End WorkerProtocol.

(** * Further properties of the existing-item reconciliation *)

Section Reconciliation.

Import crawler.

Implicit Types (i : existingItem) (rs : list indexer.Reference).

(** The reference [updateReferences] appends for an item. *)
Local Abbreviation reference_of i :=
  {| indexer.Name := Name (indexable i);
     indexer.ParentHash := ParentHash (indexable i) |}.

(** The result of [updateReferences], by the branch taken. *)
Lemma updateReferences_cases i :
  (references i = None /\ updateReferences i = set_references i (Some []))
  \/ (exists rs, references i = Some rs /\ updateReferences i = i
        /\ (ParentHash (indexable i) = ""
            \/ ParentHash (indexable i) ∈ indexer.ParentHash <$> rs))
  \/ (exists rs, references i = Some rs
        /\ ParentHash (indexable i) <> ""
        /\ (ParentHash (indexable i) ∉ indexer.ParentHash <$> rs)
        /\ updateReferences i = set_references i (Some (rs ++ [reference_of i]))).
Proof.
  unfold updateReferences.
  destruct (references i) as [rs|] eqn:Hrs; [right | by left].
  destruct (String.eqb_spec (ParentHash (indexable i)) "") as [Hroot | Hparent].
  { left. exists rs. eauto. }
  destruct (parent_referenced rs (ParentHash (indexable i))) eqn:Hknown.
  - left. exists rs. apply parent_referenced_elem in Hknown. eauto.
  - right. exists rs. repeat split; [assumption |].
    intros Hin. apply parent_referenced_elem in Hin. congruence.
Qed.

(** Once the references are not nil, one call is as good as two. *)
Lemma updateReferences_fixed i :
  references i <> None -> updateReferences (updateReferences i) = updateReferences i.
Proof.
  intros Hsome.
  destruct (updateReferences_cases i)
    as [[Hnil _] | [(rs & _ & Hsame & _) | (rs & _ & Hparent & _ & ->)]].
  - done.
  - by rewrite !Hsame.
  - apply updateReferences_after_append. by apply String.eqb_neq.
Qed.

(** X1: on an item whose references are not nil, whose [ParentHash] is not
    empty and is the parent of none of them, [updateReferences] appends
    the one reference [{Name, ParentHash}]: the entries before stay in
    place and the count grows by exactly one. *)
Theorem updateReferences_appends_new_parent i rs :
  references i = Some rs ->
  ParentHash (indexable i) <> "" ->
  (forall r, r ∈ rs -> indexer.ParentHash r <> ParentHash (indexable i)) ->
  references (updateReferences i) = Some (rs ++ [reference_of i])
  /\ length (elements_of (references (updateReferences i))) = S (length rs).
Proof.
  intros Hrs Hparent Hnew.
  destruct (updateReferences_cases i)
    as [[Hnil _] | [(rs' & Hrs' & _ & Hskip) | (rs' & Hrs' & _ & _ & ->)]].
  - congruence.
  - exfalso. destruct Hskip as [Hroot | Hin]; [done |].
    assert (rs' = rs) as -> by congruence.
    apply list_elem_of_fmap in Hin as (r & Heq & Hr). by apply (Hnew r Hr).
  - assert (rs' = rs) as -> by congruence. simpl.
    split; [reflexivity |]. rewrite length_app. simpl. lia.
Qed.

Lemma updateReferences_appends_new_parent_witness :
  references (updateReferences samples.moved_item) =
  Some [ {| indexer.Name := "a.txt"; indexer.ParentHash := "QmParent" |};
         {| indexer.Name := "c.txt"; indexer.ParentHash := "QmOther" |} ].
Proof.
  apply (updateReferences_appends_new_parent samples.moved_item
           [ {| indexer.Name := "a.txt"; indexer.ParentHash := "QmParent" |} ]).
  - reflexivity.
  - discriminate.
  - intros r Hr. apply list_elem_of_singleton in Hr. subst r. discriminate.
Defined.

(** X2: whatever the item, its references are not nil after
    [updateReferences], and the call removes or changes no entry and adds
    at most one: the entries before are the first entries after, with at
    most one more behind them. *)
Theorem updateReferences_never_nil i :
  references (updateReferences i) <> None
  /\ exists added,
       elements_of (references (updateReferences i)) =
         elements_of (references i) ++ added
       /\ length added <= 1.
Proof.
  destruct (updateReferences_cases i)
    as [[Hnil ->] | [(rs & Hrs & -> & _) | (rs & Hrs & _ & _ & ->)]]; simpl.
  - rewrite Hnil. split; [done |]. exists []. split; [reflexivity | simpl; lia].
  - rewrite Hrs. split; [done |]. exists []. simpl.
    split; [by rewrite app_nil_r | lia].
  - rewrite Hrs. split; [done |]. eexists. split; [reflexivity | simpl; lia].
Qed.

(** X3: [updateReferences] settles after two calls at most: on every item
    a third call in a row changes nothing. *)
Theorem updateReferences_settles i :
  updateReferences (updateReferences (updateReferences i)) =
  updateReferences (updateReferences i).
Proof.
  apply updateReferences_fixed.
  destruct (updateReferences_cases i)
    as [[_ ->] | [(rs & Hrs & -> & _) | (rs & _ & _ & _ & ->)]]; simpl; congruence.
Qed.

(** X4: for an item with a non-empty [ParentHash], some entry has that
    parent after one call when the references were not nil before, and
    after two calls in any case. *)
Theorem updateReferences_records_parent i :
  ParentHash (indexable i) <> "" ->
  (references i <> None ->
   ParentHash (indexable i) ∈
     indexer.ParentHash <$> elements_of (references (updateReferences i)))
  /\ ParentHash (indexable i) ∈
       indexer.ParentHash <$>
         elements_of (references (updateReferences (updateReferences i))).
Proof.
  intros Hparent.
  assert (forall j, ParentHash (indexable j) <> "" -> references j <> None ->
            ParentHash (indexable j) ∈
              indexer.ParentHash <$> elements_of (references (updateReferences j)))
    as Hone.
  { intros j Hj Hsome.
    destruct (updateReferences_cases j)
      as [[Hnil _] | [(rs & Hrs & -> & [Hroot | Hin]) | (rs & _ & _ & _ & ->)]].
    - done.
    - done.
    - by rewrite Hrs.
    - simpl. rewrite fmap_snoc. apply elem_of_app. right. by left. }
  split; [by apply Hone |].
  destruct (updateReferences_cases i)
    as [[Hnil Hinit] | [(rs & Hrs & Hsame & _) | (rs & Hrs & _ & _ & Happend)]].
  - rewrite Hinit. by apply (Hone (set_references i (Some []))).
  - rewrite Hsame. apply Hone; [assumption | by rewrite Hrs].
  - rewrite updateReferences_fixed by (by rewrite Hrs).
    apply Hone; [assumption | by rewrite Hrs].
Qed.

Lemma updateReferences_records_parent_witness :
  ("QmParent" ∉
     indexer.ParentHash <$>
       elements_of (references (updateReferences samples.unseen_item)))
  /\ "QmParent" ∈
       indexer.ParentHash <$>
         elements_of (references (updateReferences (updateReferences samples.unseen_item))).
Proof.
  split; [intros H; inversion H |].
  apply (updateReferences_records_parent samples.unseen_item). discriminate.
Defined.

(** X5: an item without parent, [ParentHash] empty, adds no entry: the
    entries after [updateReferences] are the entries before it. *)
Theorem updateReferences_root_adds_nothing i :
  ParentHash (indexable i) = "" ->
  elements_of (references (updateReferences i)) = elements_of (references i).
Proof.
  intros Hroot.
  destruct (updateReferences_cases i)
    as [[Hnil ->] | [(rs & _ & -> & _) | (rs & _ & Hparent & _)]].
  - by rewrite Hnil.
  - reflexivity.
  - done.
Qed.

Lemma updateReferences_root_adds_nothing_witness :
  elements_of (references (updateReferences samples.root_item)) = [].
Proof.
  apply (updateReferences_root_adds_nothing samples.root_item). reflexivity.
Defined.

(** X6: [updateReferences] makes up no entry: each entry after the call
    was there before it, or is [{Name, ParentHash}] of an item whose
    [ParentHash] is not empty. *)
Theorem updateReferences_entries i (r : indexer.Reference) :
  r ∈ elements_of (references (updateReferences i)) ->
  r ∈ elements_of (references i)
  \/ (r = reference_of i /\ ParentHash (indexable i) <> ""
      /\ ParentHash (indexable i) ∉
           indexer.ParentHash <$> elements_of (references i)).
Proof.
  destruct (updateReferences_cases i)
    as [[Hnil ->] | [(rs & _ & -> & _) | (rs & Hrs & Hparent & Hnew & ->)]]; simpl.
  - intros H. inversion H.
  - by left.
  - rewrite Hrs. simpl. intros [Hold | Hadded]%elem_of_app; [by left | right].
    apply list_elem_of_singleton in Hadded. done.
Qed.

Lemma updateReferences_entries_witness :
  ({| indexer.Name := "c.txt"; indexer.ParentHash := "QmOther" |} ∉
     elements_of (references samples.moved_item))
  /\ {| indexer.Name := "c.txt"; indexer.ParentHash := "QmOther" |} =
     reference_of samples.moved_item.
Proof.
  assert ({| indexer.Name := "c.txt"; indexer.ParentHash := "QmOther" |} ∉
          elements_of (references samples.moved_item)) as Hfresh.
  { intros H. apply list_elem_of_singleton in H. discriminate H. }
  split; [exact Hfresh |].
  destruct (updateReferences_entries samples.moved_item
              {| indexer.Name := "c.txt"; indexer.ParentHash := "QmOther" |})
    as [Hold | (Heq & _)].
  - apply elem_of_cons. right. apply list_elem_of_singleton. reflexivity.
  - by destruct Hfresh.
  - exact Heq.
Defined.

(** What [update] does, by [exists]. *)
Lemma update_unfold i (ctx : Context) (w : World) :
  update i ctx w =
  if exists_ i then
    (indexer.IndexItem (Indexer (indexable i)) ctx (itemType i) (Hash (indexable i))
       (<["last-seen" := indexer.PString (nowISO w)]>
          (<["references" := indexer.PReferences (references (updateReferences i))]> ∅)),
     updateReferences i,
     {| clock := clock w;
        writes := writes w ++
          [ {| call_itemType := itemType i;
               call_hash := Hash (indexable i);
               call_properties :=
                 <["last-seen" := indexer.PString (nowISO w)]>
                   (<["references" :=
                        indexer.PReferences (references (updateReferences i))]> ∅) |} ] |})
  else (None, updateReferences i, w).
Proof.
  unfold update. cbv zeta.
  pose proof (updateReferences_assigns_references i) as Hassigned.
  assert (exists_ (updateReferences i) = exists_ i) as -> by (by rewrite Hassigned).
  destruct (exists_ i); [| reflexivity].
  unfold updateIndex.
  assert (itemType (updateReferences i) = itemType i) as -> by (by rewrite Hassigned).
  assert (indexable (updateReferences i) = indexable i) as -> by (by rewrite Hassigned).
  reflexivity.
Qed.

(** X7: [updateIndex] does not look at [exists]: it always makes one
    write, and the properties it sends have the two keys [references] and
    [last-seen] and no other; the clock is left alone. *)
Theorem updateIndex_writes_two_keys i (ctx : Context) (w : World) :
  let '(err, w') := updateIndex i ctx w in
  exists call,
    writes w' = writes w ++ [call]
    /\ clock w' = clock w
    /\ call_itemType call = itemType i
    /\ call_hash call = Hash (indexable i)
    /\ dom (call_properties call) = ({[ "references"; "last-seen" ]} : gset string)
    /\ call_properties call !! "references" = Some (indexer.PReferences (references i))
    /\ call_properties call !! "last-seen" = Some (indexer.PString (nowISO w))
    /\ err = indexer.IndexItem (Indexer (indexable i)) ctx
               (itemType i) (Hash (indexable i)) (call_properties call).
Proof.
  unfold updateIndex. eexists. split; [reflexivity |]. simpl.
  split; [reflexivity |]. split; [reflexivity |]. split; [reflexivity |].
  split; [rewrite !dom_insert_L, dom_empty_L; set_solver |].
  split; [rewrite lookup_insert_ne by discriminate; apply lookup_insert_eq |].
  split; [apply lookup_insert_eq | reflexivity].
Qed.

(** X8: [update] only ever adds to the writes, one at most, and leaves the
    clock alone; an error comes back only for an item that exists, and it
    is the error the index gave for the write just made. *)
Theorem update_error_is_of_last_write i (ctx : Context) (w : World) :
  let '(err, i', w') := update i ctx w in
  clock w' = clock w
  /\ writes w `prefix_of` writes w'
  /\ length (writes w') <= S (length (writes w))
  /\ forall e, err = Some e ->
       exists_ i = true
       /\ exists call,
            last (writes w') = Some call
            /\ length (writes w') = S (length (writes w))
            /\ indexer.IndexItem (Indexer (indexable i)) ctx
                 (call_itemType call) (call_hash call) (call_properties call) = Some e.
Proof.
  rewrite update_unfold. destruct (exists_ i); simpl.
  - split; [reflexivity |]. split; [by apply prefix_app_r |].
    split; [rewrite length_app; simpl; lia |].
    intros e He. split; [reflexivity |]. eexists.
    split; [apply last_snoc |]. split; [rewrite length_app; simpl; lia |]. exact He.
  - split; [reflexivity |]. split; [reflexivity |]. split; [lia |]. discriminate.
Qed.

(** X9: first discovery.  When the index has no entry for the hash,
    [getExistingItem] gives an item on which [update] writes nothing and
    returns nil, leaving the empty collection as references, and
    [shouldCrawl] is true before and after, whatever the skip policy. *)
Theorem first_discovery_writes_nothing
    (candidate : Indexable) (ctx : Context) (w : World) (type : string) :
  indexer.GetReferences (Indexer candidate) ctx (Hash candidate) = (None, type, None) ->
  exists i,
    getExistingItem candidate ctx = inl i
    /\ update i ctx w = (None, set_references i (Some []), w)
    /\ forall skipItem,
         shouldCrawl skipItem i = true
         /\ shouldCrawl skipItem (set_references i (Some [])) = true.
Proof.
  intros Hfetch. unfold getExistingItem. rewrite Hfetch. eexists.
  split; [reflexivity |]. split; [reflexivity |].
  intros skipItem. unfold shouldCrawl. simpl.
  split; apply orb_true_r.
Qed.

Lemma first_discovery_writes_nothing_witness :
  getExistingItem samples.candidate samples.background = inl samples.unseen_item
  /\ update samples.unseen_item samples.background samples.noon =
     (None, set_references samples.unseen_item (Some []), samples.noon).
Proof.
  destruct (first_discovery_writes_nothing samples.candidate samples.background
              samples.noon "" eq_refl) as (i & Hfetch & Hupdate & _).
  assert (i = samples.unseen_item) as -> by (by injection Hfetch as <-).
  split; [reflexivity | exact Hupdate].
Defined.

(** X10: a hash the index knows.  When [GetReferences] gives references
    that are not nil, [update] on the item of [getExistingItem] makes one
    write under the type the index gave and the hash of the candidate;
    the references written are those found, with [{Name, ParentHash}]
    after them exactly when the [ParentHash] is not empty and none of
    them has it; the error of the write is returned. *)
Theorem known_hash_is_written_back
    (candidate : Indexable) (ctx : Context) (w : World)
    (found : list indexer.Reference) (type : string) :
  indexer.GetReferences (Indexer candidate) ctx (Hash candidate) =
    (Some found, type, None) ->
  exists i call,
    getExistingItem candidate ctx = inl i
    /\ exists_ i = true
    /\ writes (update i ctx w).2 = writes w ++ [call]
    /\ call_itemType call = type
    /\ call_hash call = Hash candidate
    /\ call_properties call !! "references" =
       Some (indexer.PReferences (Some
         (if bool_decide (ParentHash candidate <> ""
                          /\ ParentHash candidate ∉ indexer.ParentHash <$> found)
          then found ++ [ {| indexer.Name := Name candidate;
                             indexer.ParentHash := ParentHash candidate |} ]
          else found)))
    /\ (update i ctx w).1.1 =
       indexer.IndexItem (Indexer candidate) ctx type (Hash candidate)
         (call_properties call).
Proof.
  intros Hfetch. unfold getExistingItem. rewrite Hfetch.
  eexists. eexists. split; [reflexivity |].
  split; [by apply bool_decide_eq_true |].
  rewrite update_unfold. simpl.
  split; [reflexivity |]. simpl.
  split; [reflexivity |]. split; [reflexivity |]. split; [| reflexivity].
  rewrite lookup_insert_ne by discriminate. rewrite lookup_insert_eq.
  do 2 f_equal.
  match goal with |- references (updateReferences ?i) = _ =>
    destruct (updateReferences_cases i)
      as [[Hnil _] | [(rs & Hrs & -> & Hskip) | (rs & Hrs & Hparent & Hnew & ->)]]
  end; simpl in *.
  - discriminate.
  - injection Hrs as <-. rewrite bool_decide_eq_false_2; [reflexivity |].
    intros [Hparent Hnew]. by destruct Hskip.
  - injection Hrs as <-. by rewrite bool_decide_eq_true_2.
Qed.

Lemma known_hash_is_written_back_witness :
  (call_properties <$> writes (update samples.moved_item samples.background samples.noon).2)
    !! 0 ≫= (.!! "references") =
  Some (indexer.PReferences (Some
    [ {| indexer.Name := "a.txt"; indexer.ParentHash := "QmParent" |};
      {| indexer.Name := "c.txt"; indexer.ParentHash := "QmOther" |} ])).
Proof.
  destruct (known_hash_is_written_back samples.moved_candidate samples.background
              samples.noon
              [ {| indexer.Name := "a.txt"; indexer.ParentHash := "QmParent" |} ]
              "file" eq_refl)
    as (i & call & Hfetch & _ & Hwrites & _ & _ & Hreferences & _).
  assert (i = samples.moved_item) as -> by (by injection Hfetch as <-).
  rewrite Hwrites. simpl. exact Hreferences.
Defined.

(** X11: reconciling again.  On an item that exists and whose references
    are not nil, a second [update] leaves the item as the first one did
    and writes once more, under the same type and hash and with the same
    references: only [last-seen] can differ. *)
Theorem update_again_rewrites_same_references i (ctx : Context) (w : World) :
  exists_ i = true ->
  references i <> None ->
  let '(_, i1, w1) := update i ctx w in
  let '(_, i2, w2) := update i1 ctx w1 in
  i2 = i1
  /\ exists first second,
       writes w2 = writes w ++ [first; second]
       /\ call_itemType second = call_itemType first
       /\ call_hash second = call_hash first
       /\ call_properties second !! "references" = call_properties first !! "references"
       /\ call_properties first !! "references" =
          Some (indexer.PReferences (references i1)).
Proof.
  intros Hexists Hsome. rewrite update_unfold, Hexists.
  rewrite update_unfold.
  pose proof (updateReferences_assigns_references i) as Hassigned.
  assert (exists_ (updateReferences i) = true) as -> by (by rewrite Hassigned).
  assert (itemType (updateReferences i) = itemType i) as -> by (by rewrite Hassigned).
  assert (indexable (updateReferences i) = indexable i) as -> by (by rewrite Hassigned).
  rewrite (updateReferences_fixed i Hsome).
  split; [reflexivity |]. eexists. eexists. simpl.
  split; [by rewrite <- app_assoc |]. simpl.
  split; [reflexivity |]. split; [reflexivity |].
  rewrite !(lookup_insert_ne _ "last-seen" "references") by discriminate.
  by rewrite !lookup_insert_eq.
Qed.

Lemma update_again_rewrites_same_references_witness :
  length (writes (update (update samples.seen_item samples.background samples.noon).1.2
                    samples.background
                    (update samples.seen_item samples.background samples.noon).2).2) = 2.
Proof.
  pose proof (update_again_rewrites_same_references samples.seen_item
                samples.background samples.noon eq_refl ltac:(discriminate)) as H.
  destruct (update samples.seen_item samples.background samples.noon)
    as [[err1 i1] w1] eqn:Hfirst.
  destruct (update i1 samples.background w1) as [[err2 i2] w2] eqn:Hsecond.
  destruct H as (_ & first & second & Hwrites & _). simpl.
  rewrite Hsecond. simpl. rewrite Hwrites. reflexivity.
Defined.

End Reconciliation.

(** * Further properties of the queue worker *)

Section WorkerLoop.

Import queue.

Implicit Types (w : Worker) (ctx : Context) (msg : Delivery) (t : list event).
Implicit Types (schedule : list selected) (msgs : list Delivery).

(** [Process] returns, whatever the handler does. *)
Lemma Process_returns w ctx msg t :
  exists err t', Process {| worker := w; delivery := msg |} ctx t = (Returns err, t').
Proof.
  rewrite Process_by_outcome.
  destruct (Func w ctx msg _) as [[[e|] | r] handled]; [eauto | eauto |].
  destruct (recoverPanic_returns {| worker := w; delivery := msg |} r handled)
    as (e & Hrecover & _).
  destruct r; [eauto | rewrite Hrecover; eauto ..].
Qed.

(** The loop stops exactly when the schedule has the context done. *)
Lemma Work_loop_result w ctx schedule t :
  exists result t',
    Work_loop w ctx schedule t = (Returns result, t')
    /\ match result with
       | Stopped e => ctx_Done e ∈ schedule
       | Consuming => forall e, ctx_Done e ∉ schedule
       end.
Proof.
  revert t. induction schedule as [| [e | msg] rest IH]; intros t.
  - exists Consuming, t. split; [reflexivity |]. intros e H. inversion H.
  - exists (Stopped e), t. split; [reflexivity | by left].
  - destruct (Process_returns w ctx msg t) as (err & t1 & HProcess).
    rewrite (Work_loop_received _ _ _ _ _ _ _ HProcess).
    destruct (IH (t1 ++ [Sent (ErrChan w) err])) as (result & t' & -> & Hresult).
    exists result, t'. split; [reflexivity |].
    destruct result as [| e].
    + intros e [Habs | Hin]%elem_of_cons; [discriminate | by apply (Hresult e)].
    + by right.
Qed.

(** The loop over deliveries, then over what follows them. *)
Lemma Work_loop_app w ctx msgs schedule t :
  Work_loop w ctx ((received <$> msgs) ++ schedule) t =
  Work_loop w ctx schedule (snd (Work_loop w ctx (received <$> msgs) t)).
Proof.
  revert t. induction msgs as [| msg rest IH]; intros t; [reflexivity |].
  destruct (Process_returns w ctx msg t) as (err & t1 & HProcess).
  rewrite fmap_cons, <- app_comm_cons.
  rewrite !(Work_loop_received _ _ _ _ _ _ _ HProcess). apply IH.
Qed.

(** X12: [Work] never panics: whatever the handler does on each delivery
    of the schedule, panics included, the call returns or stays in its
    loop. *)
Theorem Work_never_panics w ctx schedule t :
  exists result t', Work w ctx schedule t = (Returns result, t').
Proof.
  unfold Work. destruct (Consume (Queue_ w)) as [e |].
  - by exists (Stopped e), t.
  - destruct (Work_loop_result w ctx schedule t) as (result & t' & -> & _). eauto.
Qed.

(** X13: [Work] stops for two reasons only.  When it returns an error,
    either subscribing failed, with that error and before anything was
    done, or the context was done, with that error; no result of a handler
    stops it.  When it is still consuming, subscribing succeeded and the
    context was not done. *)
Theorem Work_stops_only_when_told w ctx schedule t result t' :
  Work w ctx schedule t = (Returns result, t') ->
  match result with
  | Stopped e =>
      (Consume (Queue_ w) = Some e /\ t' = t)
      \/ (Consume (Queue_ w) = None /\ ctx_Done e ∈ schedule)
  | Consuming =>
      Consume (Queue_ w) = None /\ forall e, ctx_Done e ∉ schedule
  end.
Proof.
  unfold Work. destruct (Consume (Queue_ w)) as [e |]; intros HWork.
  - injection HWork as <- <-. by left.
  - destruct (Work_loop_result w ctx schedule t) as (result' & t'' & Hloop & Hresult).
    rewrite Hloop in HWork. injection HWork as <- <-.
    destruct result'; [by split | by right].
Qed.

Lemma Work_stops_only_when_told_witness :
  Work (samples.worker_of (samples.panic_with (VString "boom"))) samples.background
    [received samples.hello; received samples.goodbye] [] =
  (Returns Consuming,
   [Logged "Received a msg: hello"; Logged "Panic in: hello";
    Rejected samples.hello false; Sent 1 (Some (errors_New "boom"));
    Logged "Received a msg: goodbye"; Logged "Panic in: goodbye";
    Rejected samples.goodbye false; Sent 1 (Some (errors_New "boom"))])
  /\ forall e, ctx_Done e ∉ [received samples.hello; received samples.goodbye].
Proof.
  split; [reflexivity |].
  apply (Work_stops_only_when_told
           (samples.worker_of (samples.panic_with (VString "boom")))
           samples.background [received samples.hello; received samples.goodbye] []
           Consuming _ eq_refl).
Defined.

(** X14: the loop handles deliveries one after the other, each from the
    events the one before it left, and once the context is done it
    returns the error of the context without touching what the schedule
    holds after that. *)
Theorem Work_loop_stops_at_cancellation w ctx msgs (e : error) schedule t :
  Work_loop w ctx ((received <$> msgs) ++ schedule) t =
    Work_loop w ctx schedule (snd (Work_loop w ctx (received <$> msgs) t))
  /\ Work_loop w ctx ((received <$> msgs) ++ ctx_Done e :: schedule) t =
     (Returns (Stopped e), snd (Work_loop w ctx (received <$> msgs) t)).
Proof.
  split; [apply Work_loop_app |]. by rewrite Work_loop_app.
Qed.

(** X15: the result of [Process] and its decision go together.  When it
    returns an error, the last event is [Reject(false)] on the delivery.
    When it returns nil, either the handler returned nil and [Process]
    added [Ack(false)] and nothing else, or the handler panicked with nil
    and [Process] added nothing. *)
Theorem Process_result_matches_decision w ctx msg t (err : option error) t' :
  Process {| worker := w; delivery := msg |} ctx t = (Returns err, t') ->
  (forall e, err = Some e -> last t' = Some (Rejected msg false))
  /\ (err = None ->
      exists handled,
        (Func w ctx msg (t ++ [Logged ("Received a msg: " +:+ Body msg)]) =
           (Returns None, handled)
         /\ t' = handled ++ [Acked msg false])
        \/ (Func w ctx msg (t ++ [Logged ("Received a msg: " +:+ Body msg)]) =
              (Panics VNil, handled)
            /\ t' = handled)).
Proof.
  rewrite Process_by_outcome.
  destruct (Func w ctx msg _) as [[[e|] | r] handled].
  - intros [= <- <-]. split; [intros _ _; apply last_snoc | discriminate].
  - intros [= <- <-]. split; [discriminate | eauto].
  - destruct (recoverPanic_returns {| worker := w; delivery := msg |} r handled)
      as (e & Hrecover & _).
    assert (last (handled ++ [Logged ("Panic in: " +:+ Body msg); Rejected msg false]) =
            Some (Rejected msg false)) as Hlast.
    { rewrite (cons_middle _ handled [Rejected msg false]), app_assoc.
      apply last_snoc. }
    destruct r.
    + intros [= <- <-]. split; [discriminate | eauto].
    + rewrite Hrecover. intros [= <- <-]. split; [by intros | discriminate].
    + rewrite Hrecover. intros [= <- <-]. split; [by intros | discriminate].
    + rewrite Hrecover. intros [= <- <-]. split; [by intros | discriminate].
Qed.

Lemma Process_result_matches_decision_witness :
  last [Logged "Received a msg: hello"; Logged "Panic in: hello";
        Rejected samples.hello false] =
  Some (Rejected samples.hello false).
Proof.
  destruct (Process_result_matches_decision
              (samples.worker_of (samples.panic_with (VError (errors_New "boom"))))
              samples.background samples.hello []
              (Some (errors_New "boom"))
              [Logged "Received a msg: hello"; Logged "Panic in: hello";
               Rejected samples.hello false] eq_refl) as [Hrejected _].
  exact (Hrejected (errors_New "boom") eq_refl).
Defined.

(** [Process] under a quiet handler that never panics with nil: it only
    adds events, with one decision, on the delivery, and no send among
    them. *)
Lemma Process_quiet w ctx msg t :
  quiet (Func w) ->
  never_panics_with_nil (Func w) ->
  exists err own,
    Process {| worker := w; delivery := msg |} ctx t = (Returns err, t ++ own)
    /\ omap decided own = [msg]
    /\ forall ch, omap (sent_on ch) own = [].
Proof.
  intros Hquiet Hnot_nil. rewrite Process_by_outcome.
  destruct (Hquiet ctx msg (t ++ [Logged ("Received a msg: " +:+ Body msg)]))
    as (own & Hown & Hdecided & Hsent).
  specialize (Hnot_nil ctx msg (t ++ [Logged ("Received a msg: " +:+ Body msg)])).
  destruct (Func w ctx msg _) as [[[e|] | r] handled];
    simpl in Hown, Hnot_nil; subst handled.
  - exists (Some e), ([Logged ("Received a msg: " +:+ Body msg)] ++ own
                      ++ [Rejected msg false]).
    split; [by rewrite <- !app_assoc |]. split.
    + rewrite !omap_app, Hdecided. reflexivity.
    + intros ch. rewrite !omap_app, Hsent. reflexivity.
  - exists None, ([Logged ("Received a msg: " +:+ Body msg)] ++ own
                  ++ [Acked msg false]).
    split; [by rewrite <- !app_assoc |]. split.
    + rewrite !omap_app, Hdecided. reflexivity.
    + intros ch. rewrite !omap_app, Hsent. reflexivity.
  - destruct (recoverPanic_returns {| worker := w; delivery := msg |} r
                ((t ++ [Logged ("Received a msg: " +:+ Body msg)]) ++ own))
      as (e & Hrecover & _).
    exists (Some e), ([Logged ("Received a msg: " +:+ Body msg)] ++ own
                      ++ [Logged ("Panic in: " +:+ Body msg); Rejected msg false]).
    split; [| split].
    + destruct r; [done | ..]; rewrite Hrecover; by rewrite <- !app_assoc.
    + rewrite !omap_app, Hdecided. reflexivity.
    + intros ch. rewrite !omap_app, Hsent. reflexivity.
Qed.

(** X16: with a quiet handler that never panics with nil, the loop over
    some deliveries keeps the events it found and adds to them one
    decision for each delivery, in the order of the deliveries, and one
    send on [ErrChan] for each. *)
Theorem Work_decides_in_delivery_order w ctx msgs t :
  quiet (Func w) ->
  never_panics_with_nil (Func w) ->
  exists t',
    Work_loop w ctx (received <$> msgs) t = (Returns Consuming, t')
    /\ t `prefix_of` t'
    /\ omap decided t' = omap decided t ++ msgs
    /\ length (omap (sent_on (ErrChan w)) t') =
       length (omap (sent_on (ErrChan w)) t) + length msgs.
Proof.
  intros Hquiet Hnot_nil. revert t. induction msgs as [| msg rest IH]; intros t.
  - exists t. split; [reflexivity |]. split; [reflexivity |].
    split; [by rewrite app_nil_r | simpl; lia].
  - destruct (Process_quiet w ctx msg t Hquiet Hnot_nil)
      as (err & own & HProcess & Hdecided & Hsent).
    rewrite fmap_cons, (Work_loop_received _ _ _ _ _ _ _ HProcess).
    destruct (IH ((t ++ own) ++ [Sent (ErrChan w) err]))
      as (t' & -> & Hprefix & Hdecisions & Hsends).
    exists t'. split; [reflexivity |]. split; [| split].
    + etrans; [| exact Hprefix]. rewrite <- app_assoc. by apply prefix_app_r.
    + rewrite Hdecisions, !omap_app, Hdecided. simpl. by rewrite app_nil_r, <- app_assoc.
    + rewrite Hsends, !omap_app, Hsent, !length_app. simpl.
      rewrite Nat.eqb_refl. simpl. lia.
Qed.

(** Without the second condition the count is lost: a quiet handler that
    panics with nil gets no decision. *)
Example Work_nil_panic_leaves_delivery_undecided :
  quiet (samples.panic_with VNil)
  /\ omap decided
       (snd (Work_loop (samples.worker_of (samples.panic_with VNil)) samples.background
               (received <$> [samples.hello; samples.goodbye]) [])) = [].
Proof.
  split; [| reflexivity].
  intros ctx d t. exists []. by rewrite app_nil_r.
Qed.

Lemma Work_decides_in_delivery_order_witness :
  omap decided
    (snd (Work_loop (samples.worker_of samples.log_body) samples.background
            (received <$> [samples.hello; samples.goodbye]) [])) =
  [samples.hello; samples.goodbye].
Proof.
  assert (quiet samples.log_body) as Hquiet.
  { intros ctx d t. exists [Logged ("handling " +:+ Body d)].
    split; [reflexivity |]. split; [reflexivity |]. intros ch. reflexivity. }
  assert (never_panics_with_nil samples.log_body) as Hnot_nil.
  { intros ctx d t. discriminate. }
  destruct (Work_decides_in_delivery_order (samples.worker_of samples.log_body)
              samples.background [samples.hello; samples.goodbye] [] Hquiet Hnot_nil)
    as (t' & -> & _ & Hdecisions & _).
  exact Hdecisions.
Defined.

End WorkerLoop.
